(** * A chained hash table (misc/hashtable.py)

    A shallow embedding of the [HashTable] class and the proofs of its
    contract: round trip, upsert, deletion, absence errors, key uniqueness,
    the count invariant, bucket indexing, bucket order and rendering. *)

From Stdlib Require Import ZArith Lia.
From stdpp Require Import base tactics option list numbers strings pretty.

Local Open Scope string_scope.
Local Open Scope list_scope.
Local Open Scope Z_scope.

(** ** Exceptions *)

(** The exceptions a call on the table can end with.  [KeyError] is raised by
    the table itself (its message is not kept); [ZeroDivisionError] comes from
    [%] and [IndexError] from subscripting a Python list. *)
Inductive exception : Type :=
  | KeyError
  | ZeroDivisionError
  | IndexError.

(** A call either returns or raises. *)
Inductive result (A : Type) : Type :=
  | Ok (a : A)
  | Raise (e : exception).
Arguments Ok {A} a.
Arguments Raise {A} e.

#[global] Instance result_ret : MRet result := @Ok.
#[global] Instance result_bind : MBind result := λ A B f m,
  match m with
  | Ok a => f a
  | Raise e => Raise e
  end.

#[global] Instance exception_eq_dec : EqDecision exception.
Proof. solve_decision. Defined.

(** ** Python primitives used by the class *)

(** [a % b] on integers: the sign follows the divisor, and a zero divisor
    raises. *)
Definition py_mod (a b : Z) : result Z :=
  if decide (b = 0) then Raise ZeroDivisionError else Ok (a `mod` b).

(** [l[index]] on a list: a negative index counts from the end, and an index
    outside [-len, len) raises.  The buckets are objects that are mutated in
    place, so the value of such an expression is a reference: the number of
    the slot of [l] that holds the object. *)
Definition getitem {A : Type} (l : list A) (index : Z) : result nat :=
  let n := Z.of_nat (length l) in
  let i := if decide (index < 0) then index + n else index in
  if decide (0 ≤ i < n) then Ok (Z.to_nat i) else Raise IndexError.

(** [sep.join(l)]. *)
Fixpoint join (sep : string) (l : list string) : string :=
  match l with
  | [] => ""
  | [x] => x
  | x :: rest => x +:+ sep +:+ join sep rest
  end.

(** The protocols a key and a value answer to: [__hash__] (with [__eq__],
    which is [EqDecision]) and [__repr__]. *)
Class Hashable (K : Type) := hash : K → Z.
Class Repr (A : Type) := repr : A → string.
#[global] Hint Mode Hashable ! : typeclass_instances.
#[global] Hint Mode Repr ! : typeclass_instances.

(** [repr] of a tuple of two and of a list, from the [repr] of what they
    hold. *)
#[global] Instance pair_repr {A B : Type} `{Repr A} `{Repr B} : Repr (A * B) :=
  λ '(a, b), "(" +:+ repr a +:+ ", " +:+ repr b +:+ ")".
#[global] Instance list_repr {A : Type} `{Repr A} : Repr (list A) :=
  λ l, "[" +:+ join ", " (repr <$> l) +:+ "]".

(** ** The bucket container *)

Module LinkedList.
Section LinkedList.
Context {A : Type}.

(** Modelled from the spec: the class [LinkedList] of linkedlist.py, which
    the table imports and which is not among the sources.  The spec gives
    its contract: an ordered sequence of entries with [prepend], a linear
    [find] by predicate that returns a located entry or none, [delete] of a
    located entry, [items] in front-to-back order and [size], the current
    entry count. *)
Definition LinkedList : Type := list A.

(** A located entry: the handle [find] returns, which refers to one entry
    of the chain by its place and carries the data found there. *)
Record located : Type := Located { place : nat; data : A }.

Definition empty : LinkedList := [].

Definition items (self : LinkedList) : list A := self.

Definition size (self : LinkedList) : nat := length self.

Definition prepend (item : A) (self : LinkedList) : LinkedList :=
  item :: self.

Fixpoint find_from (quality : A → bool) (self : LinkedList) (at_ : nat)
    : option located :=
  match self with
  | [] => None
  | item :: rest =>
      if quality item then Some (Located at_ item)
      else find_from quality rest (S at_)
  end.

Definition find (quality : A → bool) (self : LinkedList) : option located :=
  find_from quality self 0%nat.

Definition delete (entry : located) (self : LinkedList) : LinkedList :=
  base.delete (place entry) self.
End LinkedList.
Arguments LinkedList : clear implicits.
Arguments located : clear implicits.
End LinkedList.

(** ** The table *)

Module HashTable.
Section HashTable.
Context {K V : Type} `{EqDecision K} `{Hashable K}.

Abbreviation bucket_t := (LinkedList.LinkedList (K * V)).

(** [self.buckets]: a list used as a fixed-size array of chains. *)
Record HashTable : Type := { buckets : list bucket_t }.

(** What a bucket reference currently points to. *)
Definition load (self : HashTable) (bucket : nat) : bucket_t :=
  default LinkedList.empty (buckets self !! bucket).

(** A mutating method call on a bucket reference: the chain changes where
    it is stored, and every later read of that slot sees the change. *)
Definition mutate (self : HashTable) (bucket : nat)
    (method : bucket_t → bucket_t) : HashTable :=
  {| buckets := alter method bucket (buckets self) |}.

(** [[LinkedList() for _ in range(init_size)]]: one new empty chain for each
    number of the range, which is empty when [init_size] is 0 or less.  A
    call without argument takes [init_size = 8]. *)
Definition __init__ (init_size : Z) : HashTable :=
  {| buckets := replicate (Z.to_nat init_size) LinkedList.empty |}.

(** [hash(key) % len(self.buckets)]. *)
Definition _bucket_index (self : HashTable) (key : K) : result Z :=
  py_mod (hash key) (Z.of_nat (Datatypes.length (buckets self))).

(** The two nested loops of [keys]: every entry of every bucket appends its
    key to [all_keys]. *)
Definition keys (self : HashTable) : list K :=
  foldl (λ all_keys bucket,
           foldl (λ all_keys '(key, value), all_keys ++ [key])
                 all_keys (LinkedList.items bucket))
        [] (buckets self).

Definition values (self : HashTable) : list V :=
  foldl (λ all_values bucket,
           foldl (λ all_values '(key, value), all_values ++ [value])
                 all_values (LinkedList.items bucket))
        [] (buckets self).

(** [all_items.extend(bucket.items())] for each bucket. *)
Definition items (self : HashTable) : list (K * V) :=
  foldl (λ all_items bucket, all_items ++ LinkedList.items bucket)
        [] (buckets self).

(** [counter += bucket.size] for each bucket. *)
Definition length (self : HashTable) : nat :=
  foldl (λ counter bucket, (counter + LinkedList.size bucket)%nat)
        0%nat (buckets self).

(** The scan of [contains]: the first entry whose key equals [myKey] ends
    the loop with [True]; the [else] of the [for] runs when the loop ends
    without a [return]. *)
Fixpoint contains_scan (myKey : K) (entries : list (K * V)) : bool :=
  match entries with
  | [] => false
  | (key, value) :: rest =>
      if decide (key = myKey) then true else contains_scan myKey rest
  end.

Definition contains (self : HashTable) (myKey : K) : result bool :=
  index ← _bucket_index self myKey;
  bucket ← getitem (buckets self) index;
  Ok (contains_scan myKey (LinkedList.items (load self bucket))).

(** The scan of [get]: as in [contains], with the value returned and
    [KeyError] raised in the [else] of the [for]. *)
Fixpoint get_scan (myKey : K) (entries : list (K * V)) : result V :=
  match entries with
  | [] => Raise KeyError
  | (key, value) :: rest =>
      if decide (key = myKey) then Ok value else get_scan myKey rest
  end.

Definition get (self : HashTable) (myKey : K) : result V :=
  index ← _bucket_index self myKey;
  bucket ← getitem (buckets self) index;
  get_scan myKey (LinkedList.items (load self bucket)).

(** [find] gives a located entry, which is an object and so true in the
    [if], or [None]. *)
Definition delete (self : HashTable) (myKey : K) : result HashTable :=
  index ← _bucket_index self myKey;
  bucket ← getitem (buckets self) index;
  let quality := λ data : K * V, bool_decide (data.1 = myKey) in
  match LinkedList.find quality (load self bucket) with
  | Some result => Ok (mutate self bucket (LinkedList.delete result))
  | None => Raise KeyError
  end.

(** [bucket] is bound before the call of [delete] and used after it: it is
    the same object, so [prepend] acts on the chain as [delete] left it. *)
Definition set (self : HashTable) (myKey : K) (myValue : V)
    : result HashTable :=
  index ← _bucket_index self myKey;
  bucket ← getitem (buckets self) index;
  present ← contains self myKey;
  self ← (if present : bool then delete self myKey else Ok self);
  Ok (mutate self bucket (LinkedList.prepend (myKey, myValue))).

Context `{Repr K} `{Repr V}.

(** ['{!r}: {!r}'.format(key, val)] for each item, joined and braced. *)
Definition __str__ (self : HashTable) : string :=
  let items := (λ '(key, val), repr key +:+ ": " +:+ repr val) <$> items self in
  "{" +:+ join ", " items +:+ "}".

(** ['HashTable({!r})'.format(self.items())]. *)
Definition __repr__ (self : HashTable) : string :=
  "HashTable(" +:+ repr (items self) +:+ ")".
End HashTable.
Arguments HashTable : clear implicits.
End HashTable.

(** ** Keys and values of the demonstration in [test_hash_table] *)

(** String keys with integer values.  CPython salts the hash of a string
    anew in every process; any function of the string will do for one run,
    and this one adds up the character codes. *)
Module Demo.
Fixpoint code_sum (s : string) : Z :=
  match s with
  | EmptyString => 0
  | String c rest => Z.of_N (Ascii.N_of_ascii c) + code_sum rest
  end.

#[export] Instance string_hashable : Hashable string := code_sum.

(** [repr] of a string without quotes or escapes in it, and of an int. *)
#[export] Instance string_repr : Repr string := λ s, "'" +:+ s +:+ "'".
#[export] Instance Z_repr : Repr Z := pretty.

Definition table : Type := HashTable.HashTable string Z.

(** A table after a run of calls, when none of them raises. *)
Definition after_sets (ht : table) (entries : list (string * Z))
    : result table :=
  foldl (λ acc '(key, value), ht ← acc; HashTable.set ht key value)
        (Ok ht) entries.

(** The table of [test_hash_table] after its three calls of [set], and
    the same calls on a table with one bucket. *)
Definition roman : result table :=
  after_sets (HashTable.__init__ 8) [("I", 1); ("V", 5); ("X", 10)].

Definition roman_table : table :=
  {| HashTable.buckets :=
       [[("X", 10)]; [("I", 1)]; []; []; []; []; [("V", 5)]; []] |}.

Definition roman_chain : result table :=
  after_sets (HashTable.__init__ 1) [("I", 1); ("V", 5); ("X", 10)].

(** [roman_table] after [set('V', 7)], and after [delete('I')]. *)
Definition roman_table_V7 : table :=
  {| HashTable.buckets :=
       [[("X", 10)]; [("I", 1)]; []; []; []; []; [("V", 7)]; []] |}.

Definition roman_table_no_I : table :=
  {| HashTable.buckets :=
       [[("X", 10)]; []; []; []; []; []; [("V", 5)]; []] |}.
End Demo.

(** ** Notions the contract is stated with *)

Section Contract.
Context {K V : Type} `{EqDecision K} `{Hashable K}.

Abbreviation table_t := (HashTable.HashTable K V).

(** The slot a key belongs to in a table with at least one bucket. *)
Definition slot (ht : table_t) (k : K) : nat :=
  Z.to_nat (hash k `mod` Z.of_nat (length (HashTable.buckets ht))).

(** A chain without its first entry for [k], the others in their order. *)
Fixpoint without_first (k : K) (entries : list (K * V)) : list (K * V) :=
  match entries with
  | [] => []
  | e :: rest => if decide (e.1 = k) then rest else e :: without_first k rest
  end.

(** How many entries of a sequence have the key [k]. *)
Definition count_key (k : K) (entries : list (K * V)) : nat :=
  length (filter (λ e, e.1 = k) entries).

(** The tables a program can get: a new table, and what a call of [set] or
    [delete] that returns leaves behind.  A call that raises does so before
    it changes anything, so it leaves the table it found. *)
Inductive reachable : table_t → Prop :=
  | reachable_init init_size :
      reachable (HashTable.__init__ init_size)
  | reachable_set ht k v ht' :
      reachable ht → HashTable.set ht k v = Ok ht' → reachable ht'
  | reachable_delete ht k ht' :
      reachable ht → HashTable.delete ht k = Ok ht' → reachable ht'.

(** Every chain holds a key once at most, and only keys of its own slot. *)
Definition chains_ok (ht : table_t) : Prop :=
  ∀ i b, HashTable.buckets ht !! i = Some b →
    NoDup (LinkedList.items b).*1 ∧
    ∀ k, k ∈ (LinkedList.items b).*1 → slot ht k = i.

Context `{Repr K} `{Repr V}.

(** The string form in the words of the contract: [key: value] for each
    entry, a comma and a space between two of them, in braces. *)
Fixpoint render_entries (entries : list (K * V)) : string :=
  match entries with
  | [] => ""
  | (k, v) :: rest =>
      repr k +:+ ": " +:+ repr v +:+
      match rest with
      | [] => ""
      | _ :: _ => ", " +:+ render_entries rest
      end
  end.

Definition render (entries : list (K * V)) : string :=
  "{" +:+ render_entries entries +:+ "}".
End Contract.

(** ** Facts on the Python primitives *)

Lemma py_mod_pos a b : 0 < b → py_mod a b = Ok (a `mod` b).
Proof. intros Hb. unfold py_mod. case_decide; [lia | done]. Qed.

Lemma py_mod_zero a : py_mod a 0 = Raise ZeroDivisionError.
Proof. done. Qed.

Lemma getitem_in_range {A} (l : list A) (index : Z) :
  0 ≤ index < Z.of_nat (length l) → getitem l index = Ok (Z.to_nat index).
Proof.
  intros Hi. unfold getitem.
  destruct (decide (index < 0)) as [|_]; [lia|].
  by rewrite decide_True.
Qed.

Lemma elem_of_concat {A} (x : A) (ls : list (list A)) :
  x ∈ concat ls ↔ ∃ l, x ∈ l ∧ l ∈ ls.
Proof.
  induction ls as [|l ls IH]; simpl.
  - split; [by intros ?%elem_of_nil | by intros (? & _ & ?%elem_of_nil)].
  - rewrite elem_of_app, IH. split.
    + intros [?|(l' & ? & ?)]; [exists l; split; [done | left]|].
      exists l'. split; [done | by right].
    + intros (l' & ? & [->|?]%elem_of_cons); [by left | right; by exists l'].
Qed.

(** ** Facts on chains *)

Section Chains.
Context {K V : Type} `{EqDecision K}.
Implicit Types (k : K) (v : V) (l : list (K * V)).

Abbreviation key_is k := (λ data : K * V, bool_decide (data.1 = k)).

Lemma find_from_spec k l n :
  match LinkedList.find_from (key_is k) l n with
  | Some h =>
      k ∈ l.*1 ∧
      ∃ i, LinkedList.place h = (n + i)%nat ∧ base.delete i l = without_first k l
  | None => k ∉ l.*1
  end.
Proof.
  revert n. induction l as [|[k' v'] l IH]; intros n; simpl.
  - apply not_elem_of_nil.
  - case_bool_decide as Hk; simpl in Hk.
    + subst k'. split; [left|]. exists 0%nat. simpl.
      rewrite decide_True by done. split; [lia | done].
    + specialize (IH (S n)).
      destruct (LinkedList.find_from _ l (S n)) as [h|].
      * destruct IH as [Hin (i & Hp & Hd)]. split; [by right|].
        exists (S i). simpl. rewrite decide_False by done.
        split; [lia | by f_equal].
      * rewrite not_elem_of_cons. done.
Qed.

Lemma find_found k l :
  k ∈ l.*1 →
  ∃ h, LinkedList.find (key_is k) l = Some h ∧
       LinkedList.delete h l = without_first k l.
Proof.
  intros Hin. pose proof (find_from_spec k l 0) as Hs. unfold LinkedList.find.
  destruct (LinkedList.find_from _ l 0) as [h|]; [|done].
  destruct Hs as [_ (i & Hp & Hd)]. exists h. split; [done|].
  unfold LinkedList.delete. by rewrite Hp.
Qed.

Lemma find_missing k l :
  k ∉ l.*1 → LinkedList.find (key_is k) l = None.
Proof.
  intros Hin. pose proof (find_from_spec k l 0) as Hs. unfold LinkedList.find.
  destruct (LinkedList.find_from _ l 0) as [h|]; [|done].
  by destruct Hs as [? _].
Qed.

Lemma contains_scan_spec k l :
  HashTable.contains_scan k l = bool_decide (k ∈ l.*1).
Proof.
  induction l as [|[k' v'] l IH]; [done|].
  cbn [HashTable.contains_scan]. rewrite fmap_cons. cbn [fst].
  destruct (decide (k' = k)) as [->|Hne].
  - symmetry. apply bool_decide_eq_true_2. left.
  - rewrite IH. apply bool_decide_ext. rewrite elem_of_cons.
    split; [by right | intros [?|?]; [congruence | done]].
Qed.

Lemma get_scan_head k v l : HashTable.get_scan k ((k, v) :: l) = Ok v.
Proof. simpl. by rewrite decide_True. Qed.

Lemma get_scan_missing k l :
  k ∉ l.*1 → HashTable.get_scan k l = @Raise V KeyError.
Proof.
  induction l as [|[k' v'] l IH]; simpl; [done|].
  rewrite not_elem_of_cons. intros [Hne Hin].
  rewrite decide_False by done. by apply IH.
Qed.

Lemma get_scan_found k l :
  k ∈ l.*1 → ∃ v, HashTable.get_scan k l = Ok v ∧ (k, v) ∈ l.
Proof.
  induction l as [|[k' v'] l IH]; simpl.
  - by intros ?%elem_of_nil.
  - intros Hin. case_decide as Hk.
    + subst. exists v'. split; [done | left].
    + apply elem_of_cons in Hin as [?|Hin]; [done|].
      destruct (IH Hin) as (v & ? & ?). exists v. split; [done | by right].
Qed.

Lemma without_first_missing k l : k ∉ l.*1 → without_first k l = l.
Proof.
  induction l as [|[k' v'] l IH]; simpl; [done|].
  rewrite not_elem_of_cons. intros [Hne Hin].
  rewrite decide_False by done. by rewrite IH.
Qed.

Lemma without_first_head k v l : without_first k ((k, v) :: l) = l.
Proof. simpl. by rewrite decide_True. Qed.

Lemma without_first_length k l :
  k ∈ l.*1 → S (length (without_first k l)) = length l.
Proof.
  induction l as [|[k' v'] l IH]; simpl.
  - by intros ?%elem_of_nil.
  - intros Hin. case_decide as Hk; [done|]. simpl. f_equal. apply IH.
    apply elem_of_cons in Hin as [?|?]; [by subst | done].
Qed.

Lemma without_first_subseteq k k' l :
  k' ∈ (without_first k l).*1 → k' ∈ l.*1.
Proof.
  induction l as [|[k0 v0] l IH]; simpl; [done|].
  case_decide; simpl; [by right|].
  rewrite !elem_of_cons. intros [?|?]; [by left | right; by apply IH].
Qed.

Lemma without_first_other k k' l :
  k' ≠ k → k' ∈ l.*1 → k' ∈ (without_first k l).*1.
Proof.
  intros Hne. induction l as [|[k0 v0] l IH]; simpl; [done|].
  case_decide; simpl in *; rewrite !elem_of_cons; intuition congruence.
Qed.

Lemma without_first_NoDup k l :
  NoDup l.*1 → NoDup (without_first k l).*1 ∧ k ∉ (without_first k l).*1.
Proof.
  induction l as [|[k0 v0] l IH]; simpl.
  - split; [constructor | apply not_elem_of_nil].
  - rewrite NoDup_cons. intros [Hk0 Hnd]. case_decide as Hk; simpl in *.
    + subst. done.
    + destruct (IH Hnd) as [IH1 IH2]. split.
      * apply NoDup_cons. split; [|done].
        intros ?%without_first_subseteq. done.
      * rewrite not_elem_of_cons. done.
Qed.

Lemma count_key_missing k l : k ∉ l.*1 → count_key k l = 0%nat.
Proof.
  unfold count_key. induction l as [|[k' v'] l IH]; simpl; [done|].
  rewrite not_elem_of_cons. intros [Hne Hin].
  rewrite filter_cons_False by (simpl; congruence). by apply IH.
Qed.

Lemma count_key_NoDup k l : NoDup l.*1 → k ∈ l.*1 → count_key k l = 1%nat.
Proof.
  unfold count_key. induction l as [|[k' v'] l IH]; simpl.
  - by intros _ ?%elem_of_nil.
  - rewrite NoDup_cons. intros [Hk' Hnd] Hin.
    destruct (decide (k' = k)) as [->|Hne].
    + rewrite filter_cons_True by done. simpl. f_equal.
      by apply (count_key_missing k l).
    + rewrite filter_cons_False by done. apply IH; [done|].
      apply elem_of_cons in Hin as [?|?]; [by subst | done].
Qed.

Lemma count_key_le_1 k l : NoDup l.*1 → (count_key k l ≤ 1)%nat.
Proof.
  intros Hnd. destruct (decide (k ∈ l.*1)) as [Hin|Hin].
  - by rewrite count_key_NoDup.
  - rewrite count_key_missing by done. lia.
Qed.
End Chains.

(** ** Facts on the table *)

Section Table.
Context {K V : Type} `{EqDecision K} `{Hashable K}.
Implicit Types (ht : HashTable.HashTable K V) (k : K) (v : V).
Implicit Types (b : LinkedList.LinkedList (K * V)).

(** *** The loops of the enumerations *)

Lemma items_concat ht : HashTable.items ht = concat (HashTable.buckets ht).
Proof.
  unfold HashTable.items, LinkedList.items.
  enough (∀ bs acc, foldl (λ all_items b, all_items ++ b) acc bs
                    = acc ++ concat bs) as Hloop.
  { by rewrite Hloop. }
  induction bs as [|b bs IH]; intros acc; simpl.
  - by rewrite app_nil_r.
  - by rewrite IH, app_assoc.
Qed.

Lemma keys_items ht : HashTable.keys ht = (HashTable.items ht).*1.
Proof.
  rewrite items_concat. unfold HashTable.keys, LinkedList.items.
  assert (∀ (l : list (K * V)) acc,
    foldl (λ all_keys '(key, _), all_keys ++ [key]) acc l = acc ++ l.*1)
    as Hinner.
  { induction l as [|[k v] l IH]; intros acc; simpl.
    - by rewrite app_nil_r.
    - rewrite IH. by rewrite <-app_assoc. }
  enough (∀ bs acc,
    foldl (λ all_keys b,
             foldl (λ all_keys '(key, _), all_keys ++ [key]) all_keys b)
          acc bs = acc ++ (concat bs).*1) as Hloop.
  { by rewrite Hloop. }
  induction bs as [|b bs IH]; intros acc; simpl.
  - by rewrite app_nil_r.
  - by rewrite IH, Hinner, fmap_app, app_assoc.
Qed.

Lemma values_items ht : HashTable.values ht = (HashTable.items ht).*2.
Proof.
  rewrite items_concat. unfold HashTable.values, LinkedList.items.
  assert (∀ (l : list (K * V)) acc,
    foldl (λ all_values '(_, value), all_values ++ [value]) acc l
    = acc ++ l.*2) as Hinner.
  { induction l as [|[k v] l IH]; intros acc; simpl.
    - by rewrite app_nil_r.
    - rewrite IH. by rewrite <-app_assoc. }
  enough (∀ bs acc,
    foldl (λ all_values b,
             foldl (λ all_values '(_, value), all_values ++ [value])
                   all_values b)
          acc bs = acc ++ (concat bs).*2) as Hloop.
  { by rewrite Hloop. }
  induction bs as [|b bs IH]; intros acc; simpl.
  - by rewrite app_nil_r.
  - by rewrite IH, Hinner, fmap_app, app_assoc.
Qed.

Lemma length_sum ht :
  HashTable.length ht = sum_list (LinkedList.size <$> HashTable.buckets ht).
Proof.
  unfold HashTable.length.
  enough (∀ bs counter,
    foldl (λ counter b, (counter + LinkedList.size b)%nat) counter bs
    = (counter + sum_list (LinkedList.size <$> bs))%nat) as Hloop.
  { by rewrite Hloop. }
  induction bs as [|b bs IH]; intros counter; simpl.
  - lia.
  - rewrite IH. unfold LinkedList.size. by rewrite Nat.add_assoc.
Qed.

Lemma length_items ht : HashTable.length ht = length (HashTable.items ht).
Proof.
  rewrite length_sum, items_concat.
  induction (HashTable.buckets ht) as [|b bs IH]; csimpl; [done|].
  by rewrite length_app, IH.
Qed.

Lemma elem_of_keys ht k :
  k ∈ HashTable.keys ht ↔
  ∃ i b, HashTable.buckets ht !! i = Some b ∧ k ∈ (LinkedList.items b).*1.
Proof.
  rewrite keys_items, items_concat. unfold LinkedList.items.
  rewrite list_elem_of_fmap. split.
  - intros ([k' v] & -> & Hin). apply elem_of_concat in Hin as (b & Hin & Hb).
    apply list_elem_of_lookup in Hb as [i Hi]. exists i, b. split; [done|].
    apply list_elem_of_fmap. by exists (k', v).
  - intros (i & b & Hi & Hin).
    apply list_elem_of_fmap in Hin as (e & -> & Hin). exists e. split; [done|].
    apply elem_of_concat. exists b. split; [done|].
    by apply list_elem_of_lookup_2 in Hi.
Qed.

(** *** Indexing *)

Lemma slot_lt ht k :
  (0 < length (HashTable.buckets ht))%nat →
  (slot ht k < length (HashTable.buckets ht))%nat.
Proof.
  intros Hn. unfold slot.
  pose proof (Z.mod_pos_bound (hash k)
                (Z.of_nat (length (HashTable.buckets ht)))). lia.
Qed.

Lemma bucket_index_slot ht k :
  (0 < length (HashTable.buckets ht))%nat →
  HashTable._bucket_index ht k = Ok (Z.of_nat (slot ht k)).
Proof.
  intros Hn. unfold HashTable._bucket_index, slot.
  rewrite py_mod_pos by lia. f_equal.
  pose proof (Z.mod_pos_bound (hash k)
                (Z.of_nat (length (HashTable.buckets ht)))). lia.
Qed.

Lemma bucket_index_no_buckets ht k :
  HashTable.buckets ht = [] →
  HashTable._bucket_index ht k = Raise ZeroDivisionError.
Proof. intros Hb. unfold HashTable._bucket_index. by rewrite Hb. Qed.

Lemma getitem_slot ht k :
  (0 < length (HashTable.buckets ht))%nat →
  getitem (HashTable.buckets ht) (Z.of_nat (slot ht k)) = Ok (slot ht k).
Proof.
  intros Hn. pose proof (slot_lt ht k Hn).
  rewrite getitem_in_range by lia. by rewrite Nat2Z.id.
Qed.

Lemma load_lookup ht i b :
  HashTable.buckets ht !! i = Some b → HashTable.load ht i = b.
Proof. intros Hb. unfold HashTable.load. by rewrite Hb. Qed.

Lemma lookup_slot ht k :
  (0 < length (HashTable.buckets ht))%nat →
  ∃ b, HashTable.buckets ht !! slot ht k = Some b.
Proof. intros Hn. apply lookup_lt_is_Some_2, slot_lt, Hn. Qed.

Lemma lookup_some_buckets ht i b :
  HashTable.buckets ht !! i = Some b →
  (0 < length (HashTable.buckets ht))%nat.
Proof. intros Hb%lookup_lt_Some. lia. Qed.

Lemma mutate_insert ht i b method :
  HashTable.buckets ht !! i = Some b →
  HashTable.mutate ht i method
  = {| HashTable.buckets := <[i := method b]> (HashTable.buckets ht) |}.
Proof.
  intros Hb. unfold HashTable.mutate. f_equal.
  apply list_eq. intros j. destruct (decide (i = j)) as [<-|Hne].
  - rewrite list_lookup_alter_eq, Hb.
    rewrite list_lookup_insert_eq by by eapply lookup_lt_Some. done.
  - by rewrite list_lookup_alter_ne, list_lookup_insert_ne.
Qed.

Lemma slot_insert ht i b k :
  slot {| HashTable.buckets := <[i := b]> (HashTable.buckets ht) |} k
  = slot ht k.
Proof. unfold slot. simpl. by rewrite length_insert. Qed.

(** *** What each call does, in terms of the chain of the key's slot *)

Lemma contains_spec ht k b :
  HashTable.buckets ht !! slot ht k = Some b →
  HashTable.contains ht k = Ok (bool_decide (k ∈ (LinkedList.items b).*1)).
Proof.
  intros Hb. pose proof (lookup_some_buckets _ _ _ Hb) as Hn.
  unfold HashTable.contains. rewrite bucket_index_slot by done. simpl.
  rewrite getitem_slot by done. simpl.
  by rewrite (load_lookup _ _ _ Hb), contains_scan_spec.
Qed.

Lemma get_spec ht k b :
  HashTable.buckets ht !! slot ht k = Some b →
  HashTable.get ht k = HashTable.get_scan k (LinkedList.items b).
Proof.
  intros Hb. pose proof (lookup_some_buckets _ _ _ Hb) as Hn.
  unfold HashTable.get. rewrite bucket_index_slot by done. simpl.
  rewrite getitem_slot by done. simpl.
  by rewrite (load_lookup _ _ _ Hb).
Qed.

Lemma delete_found ht k b :
  HashTable.buckets ht !! slot ht k = Some b →
  k ∈ (LinkedList.items b).*1 →
  HashTable.delete ht k
  = Ok {| HashTable.buckets :=
            <[slot ht k := without_first k b]> (HashTable.buckets ht) |}.
Proof.
  intros Hb Hin. pose proof (lookup_some_buckets _ _ _ Hb) as Hn.
  unfold HashTable.delete. rewrite bucket_index_slot by done. simpl.
  rewrite getitem_slot by done. simpl.
  rewrite (load_lookup _ _ _ Hb).
  destruct (find_found k b Hin) as (h & -> & Hd).
  by rewrite (mutate_insert _ _ b), Hd.
Qed.

Lemma delete_missing ht k b :
  HashTable.buckets ht !! slot ht k = Some b →
  k ∉ (LinkedList.items b).*1 →
  HashTable.delete ht k = Raise KeyError.
Proof.
  intros Hb Hin. pose proof (lookup_some_buckets _ _ _ Hb) as Hn.
  unfold HashTable.delete. rewrite bucket_index_slot by done. simpl.
  rewrite getitem_slot by done. simpl.
  rewrite (load_lookup _ _ _ Hb).
  by rewrite (find_missing k b Hin).
Qed.

Lemma set_spec ht k v b :
  HashTable.buckets ht !! slot ht k = Some b →
  HashTable.set ht k v
  = Ok {| HashTable.buckets :=
            <[slot ht k := (k, v) :: without_first k b]>
              (HashTable.buckets ht) |}.
Proof.
  intros Hb. pose proof (lookup_some_buckets _ _ _ Hb) as Hn.
  pose proof (lookup_lt_Some _ _ _ Hb) as Hlt.
  unfold HashTable.set. rewrite bucket_index_slot by done. simpl.
  rewrite getitem_slot by done. simpl.
  rewrite (contains_spec _ _ _ Hb). simpl.
  case_bool_decide as Hin.
  - rewrite (delete_found _ _ _ Hb Hin). simpl.
    erewrite mutate_insert by (simpl; by apply list_lookup_insert_eq).
    simpl. by rewrite list_insert_insert_eq.
  - simpl. rewrite (mutate_insert _ _ b) by done.
    by rewrite without_first_missing.
Qed.
End Table.

(** ** Key uniqueness as an invariant *)

Section Invariant.
Context {K V : Type} `{EqDecision K} `{Hashable K}.
Implicit Types (ht : HashTable.HashTable K V) (k : K) (v : V).
Implicit Types (b : LinkedList.LinkedList (K * V)).

Lemma chains_ok_init init_size :
  chains_ok (HashTable.__init__ (K:=K) (V:=V) init_size).
Proof.
  intros i b [-> _]%lookup_replicate. split; [constructor|].
  by intros k ?%elem_of_nil.
Qed.

Lemma chains_ok_insert ht i b' :
  chains_ok ht →
  NoDup (LinkedList.items b').*1 →
  (∀ k, k ∈ (LinkedList.items b').*1 → slot ht k = i) →
  chains_ok {| HashTable.buckets := <[i := b']> (HashTable.buckets ht) |}.
Proof.
  intros Hok Hnd Hslot j b. simpl. intros Hj.
  destruct (decide (i = j)) as [<-|Hne].
  - apply list_lookup_insert_Some in Hj as [(_ & <- & _)|[? _]]; [|done].
    split; [done|]. intros k Hk. rewrite slot_insert. by apply Hslot.
  - rewrite list_lookup_insert_ne in Hj by done.
    destruct (Hok j b Hj) as [? Hs]. split; [done|].
    intros k Hk. rewrite slot_insert. by apply Hs.
Qed.

Lemma chains_ok_set ht k v ht' :
  chains_ok ht → HashTable.set ht k v = Ok ht' → chains_ok ht'.
Proof.
  intros Hok Hset.
  destruct (decide (0 < length (HashTable.buckets ht))%nat) as [Hn|Hn].
  - destruct (lookup_slot ht k Hn) as [b Hb].
    rewrite (set_spec _ _ _ _ Hb) in Hset. injection Hset as <-.
    destruct (Hok _ _ Hb) as [Hnd Hs].
    destruct (without_first_NoDup k b Hnd) as [Hnd' Hk].
    apply chains_ok_insert; [done|..].
    + unfold LinkedList.items. rewrite fmap_cons. by apply NoDup_cons.
    + unfold LinkedList.items. rewrite fmap_cons. simpl.
      intros k' [->|Hin%without_first_subseteq]%elem_of_cons; [done|].
      by apply Hs.
  - unfold HashTable.set in Hset.
    rewrite bucket_index_no_buckets in Hset; [done|].
    destruct (HashTable.buckets ht); [done | simpl in Hn; lia].
Qed.

Lemma chains_ok_delete ht k ht' :
  chains_ok ht → HashTable.delete ht k = Ok ht' → chains_ok ht'.
Proof.
  intros Hok Hdel.
  destruct (decide (0 < length (HashTable.buckets ht))%nat) as [Hn|Hn].
  - destruct (lookup_slot ht k Hn) as [b Hb].
    destruct (decide (k ∈ (LinkedList.items b).*1)) as [Hin|Hin].
    + rewrite (delete_found _ _ _ Hb Hin) in Hdel. injection Hdel as <-.
      destruct (Hok _ _ Hb) as [Hnd Hs].
      destruct (without_first_NoDup k b Hnd) as [Hnd' Hk].
      apply chains_ok_insert; [done..|].
      intros k' Hin'%without_first_subseteq. by apply Hs.
    + by rewrite (delete_missing _ _ _ Hb Hin) in Hdel.
  - unfold HashTable.delete in Hdel.
    rewrite bucket_index_no_buckets in Hdel; [done|].
    destruct (HashTable.buckets ht); [done | simpl in Hn; lia].
Qed.

Lemma reachable_chains_ok ht : reachable ht → chains_ok ht.
Proof.
  induction 1 as [init_size | ht k v ht' _ IH Hset | ht k ht' _ IH Hdel].
  - apply chains_ok_init.
  - by eapply chains_ok_set.
  - by eapply chains_ok_delete.
Qed.

Lemma chains_ok_keys_NoDup ht : chains_ok ht → NoDup (HashTable.keys ht).
Proof.
  rewrite keys_items, items_concat. unfold chains_ok, slot, LinkedList.items.
  generalize (length (HashTable.buckets ht)) as n.
  induction (HashTable.buckets ht) as [|b bs IH] using rev_ind; intros n Hok.
  - constructor.
  - rewrite concat_app, fmap_app. simpl. rewrite app_nil_r.
    apply NoDup_app. split; [|split].
    + apply (IH n). intros i b' Hi. apply Hok.
      by apply lookup_app_l_Some.
    + intros k ([k' v] & -> & (b' & Hin & Hb')%elem_of_concat)%list_elem_of_fmap Hk.
      apply list_elem_of_lookup in Hb' as [i Hi].
      pose proof (lookup_lt_Some _ _ _ Hi) as Hlt.
      destruct (Hok i b') as [_ Hs1]; [by apply lookup_app_l_Some|].
      destruct (Hok (length bs) b) as [_ Hs2].
      { by rewrite lookup_app_r, Nat.sub_diag by lia. }
      specialize (Hs1 k'). specialize (Hs2 k' Hk).
      rewrite Hs1 in Hs2; [subst i; by apply Nat.lt_irrefl in Hlt|].
      apply list_elem_of_fmap. by exists (k', v).
    + apply (Hok (length bs)). by rewrite lookup_app_r, Nat.sub_diag by lia.
Qed.

Lemma chains_ok_elem_of_keys ht k b :
  chains_ok ht →
  HashTable.buckets ht !! slot ht k = Some b →
  k ∈ HashTable.keys ht ↔ k ∈ (LinkedList.items b).*1.
Proof.
  intros Hok Hb. rewrite elem_of_keys. split.
  - intros (i & b' & Hi & Hin). destruct (Hok _ _ Hi) as [_ Hs].
    rewrite <-(Hs _ Hin) in Hi. congruence.
  - intros Hin. by exists (slot ht k), b.
Qed.

Lemma remove_dups_NoDup (l : list K) : NoDup l → remove_dups l = l.
Proof.
  induction 1 as [|x l Hx _ IH]; simpl; [done|].
  destruct (decide_rel elem_of x l) as [?|_]; [done|]. by rewrite IH.
Qed.

Lemma length_concat_insert {A} (ls : list (list A)) i l l' :
  ls !! i = Some l →
  (length (concat (<[i := l']> ls)) + length l
   = length (concat ls) + length l')%nat.
Proof.
  revert i. induction ls as [|l0 ls IH]; intros [|i]; simpl; try done.
  - intros [= ->]. rewrite !length_app. lia.
  - intros Hi. rewrite !length_app. specialize (IH _ Hi). lia.
Qed.
End Invariant.

(** ** Facts on strings *)

Lemma append_empty_r (s : string) : s +:+ "" = s.
Proof.
  induction s as [|c s IH]; [done|].
  change (String c (s +:+ "") = String c s). by f_equal.
Qed.

Lemma append_assoc (s1 s2 s3 : string) :
  (s1 +:+ s2) +:+ s3 = s1 +:+ s2 +:+ s3.
Proof.
  induction s1 as [|c s1 IH]; [done|].
  change (String c ((s1 +:+ s2) +:+ s3) = String c (s1 +:+ s2 +:+ s3)).
  by f_equal.
Qed.

(** ** The contract of the table *)

Section Claims.
Context {K V : Type} `{EqDecision K} `{Hashable K}.
Implicit Types (ht : HashTable.HashTable K V) (k : K) (v : V).
Implicit Types (b : LinkedList.LinkedList (K * V)).

(** C1, round trip: on a table with at least one bucket, [set k v]
    returns, and on the table it leaves [get k] returns [v] and
    [contains k] returns [True]. *)
Theorem set_then_get_contains ht k v :
  (0 < length (HashTable.buckets ht))%nat →
  ∃ ht', HashTable.set ht k v = Ok ht' ∧
         HashTable.get ht' k = Ok v ∧
         HashTable.contains ht' k = Ok true.
Proof.
  intros Hn. destruct (lookup_slot ht k Hn) as [b Hb].
  eexists. split; [by apply set_spec|].
  pose proof (lookup_lt_Some _ _ _ Hb) as Hlt.
  set (ht' := {| HashTable.buckets := _ |}).
  assert (HashTable.buckets ht' !! slot ht' k
          = Some ((k, v) :: without_first k b)) as Hb'.
  { unfold ht'. rewrite slot_insert. simpl.
    by apply list_lookup_insert_eq. }
  split.
  - rewrite (get_spec _ _ _ Hb'). apply get_scan_head.
  - rewrite (contains_spec _ _ _ Hb'). f_equal.
    apply bool_decide_eq_true_2. unfold LinkedList.items.
    rewrite fmap_cons. left.
Qed.

(** C2, upsert: on a reachable table with at least one bucket, [set k v1]
    and then [set k v2] both return and leave exactly one entry with the
    key [k] among all the entries of the table; [get k] then returns [v2],
    and [length] is the same after the second call as after the first. *)
Theorem set_twice_one_entry ht k v1 v2 :
  reachable ht →
  (0 < length (HashTable.buckets ht))%nat →
  ∃ ht1 ht2,
    HashTable.set ht k v1 = Ok ht1 ∧
    HashTable.set ht1 k v2 = Ok ht2 ∧
    count_key k (HashTable.items ht2) = 1%nat ∧
    HashTable.get ht2 k = Ok v2 ∧
    HashTable.length ht2 = HashTable.length ht1.
Proof.
  intros Hreach Hn. destruct (lookup_slot ht k Hn) as [b Hb].
  pose proof (lookup_lt_Some _ _ _ Hb) as Hlt.
  pose proof (set_spec ht k v1 b Hb) as Hset1.
  set (ht1 := {| HashTable.buckets := _ |}) in Hset1.
  assert (HashTable.buckets ht1 !! slot ht1 k
          = Some ((k, v1) :: without_first k b)) as Hb1.
  { unfold ht1. rewrite slot_insert. simpl.
    by apply list_lookup_insert_eq. }
  pose proof (set_spec ht1 k v2 _ Hb1) as Hset2.
  rewrite without_first_head in Hset2.
  set (ht2 := {| HashTable.buckets := _ |}) in Hset2.
  assert (HashTable.buckets ht2 !! slot ht2 k
          = Some ((k, v2) :: without_first k b)) as Hb2.
  { unfold ht2. rewrite slot_insert. simpl.
    apply list_lookup_insert_eq. unfold ht1. simpl.
    rewrite length_insert. unfold ht1. by rewrite slot_insert. }
  assert (reachable ht2) as Hreach2.
  { eapply reachable_set; [|exact Hset2]. by eapply reachable_set. }
  pose proof (reachable_chains_ok _ Hreach2) as Hok2.
  exists ht1, ht2. split; [done|]. split; [done|]. split; [|split].
  - apply count_key_NoDup.
    + rewrite <-keys_items. by apply chains_ok_keys_NoDup.
    + rewrite <-keys_items. apply (chains_ok_elem_of_keys _ _ _ Hok2 Hb2).
      unfold LinkedList.items. rewrite fmap_cons. left.
  - rewrite (get_spec _ _ _ Hb2). apply get_scan_head.
  - rewrite !length_items, !items_concat.
    pose proof (length_concat_insert (HashTable.buckets ht1) (slot ht1 k)
                  _ ((k, v2) :: without_first k b) Hb1) as Hlen.
    fold ht2 in Hlen. simpl in Hlen. unfold ht2. simpl. by apply Nat.add_cancel_r in Hlen.
Qed.

(** C3, deletion: on a reachable table that holds the key [k], [delete k]
    returns, and on the table it leaves [contains k] returns [False] and
    [get k] raises [KeyError]. *)
Theorem delete_then_absent ht k :
  reachable ht →
  k ∈ HashTable.keys ht →
  ∃ ht', HashTable.delete ht k = Ok ht' ∧
         HashTable.contains ht' k = Ok false ∧
         HashTable.get ht' k = Raise KeyError.
Proof.
  intros Hok%reachable_chains_ok Hin.
  assert (0 < length (HashTable.buckets ht))%nat as Hn.
  { apply elem_of_keys in Hin as (i & b & Hi%lookup_lt_Some & _). lia. }
  destruct (lookup_slot ht k Hn) as [b Hb].
  apply (chains_ok_elem_of_keys _ _ _ Hok Hb) in Hin.
  eexists. split; [by apply delete_found|].
  set (ht' := {| HashTable.buckets := _ |}).
  assert (HashTable.buckets ht' !! slot ht' k = Some (without_first k b))
    as Hb'.
  { unfold ht'. rewrite slot_insert. simpl.
    by eapply list_lookup_insert_eq, lookup_lt_Some. }
  destruct (Hok _ _ Hb) as [Hnd _].
  destruct (without_first_NoDup k b Hnd) as [_ Hgone].
  split.
  - rewrite (contains_spec _ _ _ Hb'). f_equal.
    by apply bool_decide_eq_false_2.
  - rewrite (get_spec _ _ _ Hb'). by apply get_scan_missing.
Qed.

(** C4, absence errors: on a table with at least one bucket, for a key
    that none of its entries has, [get] and [delete] both raise [KeyError];
    [get] returns no value. *)
Theorem absent_key_raises ht k :
  (0 < length (HashTable.buckets ht))%nat →
  k ∉ HashTable.keys ht →
  HashTable.get ht k = Raise KeyError ∧
  HashTable.delete ht k = Raise KeyError.
Proof.
  intros Hn Hk. destruct (lookup_slot ht k Hn) as [b Hb].
  assert (k ∉ (LinkedList.items b).*1) as Hin.
  { intros Hin. apply Hk, elem_of_keys. by exists (slot ht k), b. }
  split.
  - rewrite (get_spec _ _ _ Hb). by apply get_scan_missing.
  - by apply (delete_missing _ _ b).
Qed.

(** C5, key uniqueness: in every reachable table, a key is in one bucket
    at most, and it is the key of one entry at most of that bucket. *)
Theorem key_uniqueness ht k :
  reachable ht →
  (∀ i j bi bj,
     HashTable.buckets ht !! i = Some bi →
     HashTable.buckets ht !! j = Some bj →
     k ∈ (LinkedList.items bi).*1 → k ∈ (LinkedList.items bj).*1 →
     i = j) ∧
  (∀ i b, HashTable.buckets ht !! i = Some b →
     (count_key k (LinkedList.items b) ≤ 1)%nat).
Proof.
  intros Hok%reachable_chains_ok. split.
  - intros i j bi bj Hi Hj Hki Hkj.
    destruct (Hok _ _ Hi) as [_ Hsi]. destruct (Hok _ _ Hj) as [_ Hsj].
    by rewrite <-(Hsi k Hki), <-(Hsj k Hkj).
  - intros i b Hi. destruct (Hok _ _ Hi) as [Hnd _].
    by apply count_key_le_1.
Qed.

(** C6, count invariant: in every reachable table, [length] is the sum of
    the bucket sizes, the number of distinct keys of the table, the length
    of [keys] and the length of [items]; the keys of the table are those
    for which [contains] returns [True]. *)
Theorem count_invariant ht :
  reachable ht →
  HashTable.length ht
    = sum_list (LinkedList.size <$> HashTable.buckets ht) ∧
  HashTable.length ht = length (remove_dups (HashTable.keys ht)) ∧
  HashTable.length ht = length (HashTable.keys ht) ∧
  HashTable.length ht = length (HashTable.items ht) ∧
  (∀ k, k ∈ remove_dups (HashTable.keys ht) ↔
        HashTable.contains ht k = Ok true).
Proof.
  intros Hok%reachable_chains_ok.
  pose proof (chains_ok_keys_NoDup _ Hok) as Hnd.
  rewrite (remove_dups_NoDup _ Hnd).
  assert (HashTable.length ht = length (HashTable.keys ht)) as Hlen.
  { by rewrite keys_items, length_fmap, length_items. }
  split; [apply length_sum|]. split; [done|]. split; [done|].
  split; [apply length_items|]. intros k.
  destruct (decide (0 < length (HashTable.buckets ht))%nat) as [Hn|Hn].
  - destruct (lookup_slot ht k Hn) as [b Hb].
    rewrite (chains_ok_elem_of_keys _ _ _ Hok Hb), (contains_spec _ _ _ Hb).
    split.
    + intros Hin. f_equal. by apply bool_decide_eq_true_2.
    + intros [= Hin]. by apply bool_decide_eq_true_1 in Hin.
  - assert (HashTable.buckets ht = []) as Hnil.
    { destruct (HashTable.buckets ht); [done | simpl in Hn; lia]. }
    unfold HashTable.contains.
    rewrite (bucket_index_no_buckets _ _ Hnil). split; [|done].
    intros (i & b & Hi & _)%elem_of_keys. by rewrite Hnil in Hi.
Qed.

(** C7, bucket index: on a table with at least one bucket, the index of a
    key is its hash modulo the number of buckets, it is at least 0 and
    less than that number, and two calls on the same table give the same
    result. *)
Theorem bucket_index_mod_range ht k :
  (0 < length (HashTable.buckets ht))%nat →
  let bucket_count := Z.of_nat (length (HashTable.buckets ht)) in
  HashTable._bucket_index ht k = Ok (hash k `mod` bucket_count) ∧
  0 ≤ hash k `mod` bucket_count < bucket_count ∧
  (∀ first second,
     HashTable._bucket_index ht k = first →
     HashTable._bucket_index ht k = second →
     first = second).
Proof.
  intros Hn bucket_count. split; [|split].
  - unfold HashTable._bucket_index. apply py_mod_pos. lia.
  - apply Z.mod_pos_bound. lia.
  - congruence.
Qed.

(** C8, bucket order: on a table with at least one bucket, [set k v]
    returns and leaves, in the bucket of [k], the entry [(k, v)] in front
    of the entries the bucket had, in their order and without the entry
    that [k] had there, if any: the entry of an updated key moves to the
    front. *)
Theorem set_moves_to_front ht k v :
  (0 < length (HashTable.buckets ht))%nat →
  ∃ ht' index b b',
    HashTable.set ht k v = Ok ht' ∧
    HashTable._bucket_index ht k = Ok index ∧
    HashTable._bucket_index ht' k = Ok index ∧
    HashTable.buckets ht !! Z.to_nat index = Some b ∧
    HashTable.buckets ht' !! Z.to_nat index = Some b' ∧
    head (LinkedList.items b') = Some (k, v) ∧
    LinkedList.items b' = (k, v) :: without_first k (LinkedList.items b).
Proof.
  intros Hn. destruct (lookup_slot ht k Hn) as [b Hb].
  pose proof (lookup_lt_Some _ _ _ Hb) as Hlt.
  set (b' := (k, v) :: without_first k b).
  set (ht' := {| HashTable.buckets :=
                   <[slot ht k := b']> (HashTable.buckets ht) |}).
  exists ht', (Z.of_nat (slot ht k)), b, b'. rewrite Nat2Z.id.
  split; [by apply set_spec|]. split; [by apply bucket_index_slot|].
  split; [|split; [done|split; [|done]]].
  - pose proof (bucket_index_slot ht' k) as Hindex.
    replace (slot ht' k) with (slot ht k) in Hindex
      by (symmetry; apply slot_insert).
    apply Hindex. simpl. by rewrite length_insert.
  - simpl. by apply list_lookup_insert_eq.
Qed.

(** C10, no validation of [init_size]: a table made with [init_size = 0]
    has no bucket; [_bucket_index] then raises [ZeroDivisionError] for
    every key, and so do [contains], [get], [set] and [delete]. *)
Theorem zero_size_raises k v :
  HashTable.buckets (HashTable.__init__ (K:=K) (V:=V) 0) = [] ∧
  HashTable._bucket_index (HashTable.__init__ (V:=V) 0) k
    = Raise ZeroDivisionError ∧
  HashTable.contains (HashTable.__init__ (V:=V) 0) k
    = Raise ZeroDivisionError ∧
  HashTable.get (HashTable.__init__ (V:=V) 0) k = Raise ZeroDivisionError ∧
  HashTable.set (HashTable.__init__ 0) k v = Raise ZeroDivisionError ∧
  HashTable.delete (HashTable.__init__ (V:=V) 0) k
    = Raise ZeroDivisionError.
Proof. done. Qed.

Context `{Repr K} `{Repr V}.

Lemma join_render (entries : list (K * V)) :
  join ", " ((λ '(key, val), repr key +:+ ": " +:+ repr val) <$> entries)
  = render_entries entries.
Proof.
  induction entries as [|[k v] [|e rest] IH]; [done| |].
  - simpl. by rewrite append_empty_r.
  - change (render_entries ((k, v) :: e :: rest))
      with (repr k +:+ ": " +:+ repr v +:+ ", "
            +:+ render_entries (e :: rest)).
    rewrite <-IH. rewrite !fmap_cons. cbn [join].
    destruct ((λ '(key, val), repr key +:+ ": " +:+ repr val) <$> rest);
      by rewrite !append_assoc.
Qed.

(** C9, rendering: the string form of a table is [{k1: v1, k2: v2, ...}]
    over the entries in the order of [items], bucket after bucket and each
    from front to back, with [repr] of each key and value. *)
Theorem str_renders_items ht :
  HashTable.__str__ ht = render (HashTable.items ht) ∧
  HashTable.items ht = concat (LinkedList.items <$> HashTable.buckets ht).
Proof.
  split.
  - unfold HashTable.__str__, render. by rewrite join_render.
  - rewrite items_concat. unfold LinkedList.items. by rewrite list_fmap_id.
Qed.
End Claims.

(** ** The demonstration, and the contract at its table *)

Import Demo.

Example roman_returns : roman = Ok roman_table.
Proof. reflexivity. Qed.

Example roman_str :
  HashTable.__str__ roman_table = "{'X': 10, 'I': 1, 'V': 5}".
Proof. reflexivity. Qed.

Example roman_scenario :
  HashTable.length roman_table = 3%nat ∧
  HashTable.get roman_table "X" = Ok 10 ∧
  HashTable.contains roman_table "X" = Ok true ∧
  ∃ ht, HashTable.delete roman_table "I" = Ok ht ∧
        HashTable.length ht = 2%nat ∧
        HashTable.contains ht "I" = Ok false ∧
        HashTable.get ht "I" = Raise KeyError.
Proof. repeat split. eexists. repeat split. Qed.

Example roman_chain_scenario :
  ∃ ht, roman_chain = Ok ht ∧
        HashTable.items ht = [("X", 10); ("V", 5); ("I", 1)] ∧
        HashTable.length ht = 3%nat ∧
        HashTable.get ht "I" = Ok 1 ∧
        HashTable.get ht "V" = Ok 5 ∧
        HashTable.get ht "X" = Ok 10.
Proof. eexists. repeat split. Qed.

(** An update in a chain of three: the entry of ["I"] was last and comes
    first, the two others keep their order. *)
Example roman_chain_update :
  (ht ← roman_chain; ht ← HashTable.set ht "I" 4; Ok (HashTable.items ht))
  = Ok [("I", 4); ("X", 10); ("V", 5)].
Proof. reflexivity. Qed.

Example empty_str : HashTable.__str__ (HashTable.__init__ 8 : table) = "{}".
Proof. reflexivity. Qed.

Lemma roman_table_reachable : reachable roman_table.
Proof.
  pose proof (reachable_init (K:=string) (V:=Z) 8) as H0.
  pose proof (reachable_set _ "I" 1 _ H0 eq_refl) as H1.
  pose proof (reachable_set _ "V" 5 _ H1 eq_refl) as H2.
  exact (reachable_set _ "X" 10 _ H2 eq_refl).
Qed.

Lemma roman_table_buckets : (0 < length (HashTable.buckets roman_table))%nat.
Proof. simpl. lia. Qed.

Lemma set_then_get_contains_witness :
  (0 < length (HashTable.buckets roman_table))%nat ∧
  ∃ ht', HashTable.set roman_table "V" 7 = Ok ht' ∧
         HashTable.get ht' "V" = Ok 7 ∧
         HashTable.contains ht' "V" = Ok true.
Proof.
  split; [exact roman_table_buckets|].
  apply (set_then_get_contains roman_table "V" 7). simpl. lia.
Defined.

Lemma set_twice_one_entry_witness :
  reachable roman_table ∧
  (0 < length (HashTable.buckets roman_table))%nat ∧
  ∃ ht1 ht2,
    HashTable.set roman_table "V" 7 = Ok ht1 ∧
    HashTable.set ht1 "V" 9 = Ok ht2 ∧
    count_key "V" (HashTable.items ht2) = 1%nat ∧
    HashTable.get ht2 "V" = Ok 9 ∧
    HashTable.length ht2 = HashTable.length ht1.
Proof.
  split; [exact roman_table_reachable|].
  split; [exact roman_table_buckets|].
  apply (set_twice_one_entry roman_table "V" 7 9).
  - exact roman_table_reachable.
  - simpl. lia.
Defined.

Lemma roman_table_has_I : "I" ∈ HashTable.keys roman_table.
Proof. vm_compute. right. left. Qed.

Lemma roman_table_lacks_L : "L" ∉ HashTable.keys roman_table.
Proof. apply (bool_decide_unpack _). vm_compute. exact I. Qed.

Lemma delete_then_absent_witness :
  reachable roman_table ∧
  "I" ∈ HashTable.keys roman_table ∧
  ∃ ht', HashTable.delete roman_table "I" = Ok ht' ∧
         HashTable.contains ht' "I" = Ok false ∧
         HashTable.get ht' "I" = Raise KeyError.
Proof.
  split; [exact roman_table_reachable|].
  split; [exact roman_table_has_I|].
  apply (delete_then_absent roman_table "I").
  - exact roman_table_reachable.
  - vm_compute. right. left.
Defined.

Lemma absent_key_raises_witness :
  (0 < length (HashTable.buckets roman_table))%nat ∧
  ("L" ∉ HashTable.keys roman_table) ∧
  HashTable.get roman_table "L" = Raise KeyError ∧
  HashTable.delete roman_table "L" = Raise KeyError.
Proof.
  split; [exact roman_table_buckets|].
  split; [exact roman_table_lacks_L|].
  apply (absent_key_raises roman_table "L").
  - simpl. lia.
  - apply (bool_decide_unpack _). vm_compute. exact I.
Defined.

Lemma key_uniqueness_witness :
  reachable roman_table ∧
  (∀ i j bi bj,
     HashTable.buckets roman_table !! i = Some bi →
     HashTable.buckets roman_table !! j = Some bj →
     "V" ∈ (LinkedList.items bi).*1 → "V" ∈ (LinkedList.items bj).*1 →
     i = j) ∧
  (∀ i b, HashTable.buckets roman_table !! i = Some b →
     (count_key "V" (LinkedList.items b) ≤ 1)%nat).
Proof.
  split; [exact roman_table_reachable|].
  apply (key_uniqueness roman_table "V"). exact roman_table_reachable.
Defined.

Lemma count_invariant_witness :
  reachable roman_table ∧
  HashTable.length roman_table
    = sum_list (LinkedList.size <$> HashTable.buckets roman_table) ∧
  HashTable.length roman_table
    = length (remove_dups (HashTable.keys roman_table)) ∧
  HashTable.length roman_table = length (HashTable.keys roman_table) ∧
  HashTable.length roman_table = length (HashTable.items roman_table) ∧
  (∀ k, k ∈ remove_dups (HashTable.keys roman_table) ↔
        HashTable.contains roman_table k = Ok true).
Proof.
  split; [exact roman_table_reachable|].
  apply (count_invariant roman_table). exact roman_table_reachable.
Defined.

Lemma bucket_index_mod_range_witness :
  (0 < length (HashTable.buckets roman_table))%nat ∧
  HashTable._bucket_index roman_table "V" = Ok (hash "V" `mod` 8) ∧
  0 ≤ hash "V" `mod` 8 < 8 ∧
  (∀ first second,
     HashTable._bucket_index roman_table "V" = first →
     HashTable._bucket_index roman_table "V" = second →
     first = second).
Proof.
  split; [exact roman_table_buckets|].
  apply (bucket_index_mod_range roman_table "V"). simpl. lia.
Defined.

Lemma set_moves_to_front_witness :
  (0 < length (HashTable.buckets roman_table))%nat ∧
  ∃ ht' index b b',
    HashTable.set roman_table "V" 7 = Ok ht' ∧
    HashTable._bucket_index roman_table "V" = Ok index ∧
    HashTable._bucket_index ht' "V" = Ok index ∧
    HashTable.buckets roman_table !! Z.to_nat index = Some b ∧
    HashTable.buckets ht' !! Z.to_nat index = Some b' ∧
    head (LinkedList.items b') = Some ("V", 7) ∧
    LinkedList.items b' = ("V", 7) :: without_first "V" (LinkedList.items b).
Proof.
  split; [exact roman_table_buckets|].
  apply (set_moves_to_front roman_table "V" 7). simpl. lia.
Defined.

Example roman_repr :
  HashTable.__repr__ roman_table = "HashTable([('X', 10), ('I', 1), ('V', 5)])".
Proof. reflexivity. Qed.

(** ** More of the class: what a call changes, leaves alone and raises *)

Section More.
Context {K V : Type} `{EqDecision K} `{Hashable K}.
Implicit Types (ht : HashTable.HashTable K V) (k : K) (v : V).
Implicit Types (b : LinkedList.LinkedList (K * V)) (l : list (K * V)).

Lemma no_buckets ht :
  ¬ (0 < length (HashTable.buckets ht))%nat → HashTable.buckets ht = [].
Proof. destruct (HashTable.buckets ht); [done | simpl; lia]. Qed.

(** *** Scans of a chain *)

Lemma get_scan_without_first k k' l :
  k' ≠ k →
  HashTable.get_scan k' (without_first k l) = HashTable.get_scan k' l.
Proof.
  intros Hne. induction l as [|[k0 v0] l IH]; [done|].
  cbn [without_first HashTable.get_scan fst].
  destruct (decide (k0 = k)) as [->|Hk0].
  - by rewrite decide_False by done.
  - cbn [HashTable.get_scan]. by rewrite IH.
Qed.

Lemma get_scan_elem k v l : HashTable.get_scan k l = Ok v → (k, v) ∈ l.
Proof.
  induction l as [|[k0 v0] l IH]; [done|]. cbn [HashTable.get_scan].
  destruct (decide (k0 = k)) as [->|Hk0].
  - intros [= ->]. left.
  - intros Hget. right. by apply IH.
Qed.

Lemma get_scan_NoDup k v l :
  NoDup l.*1 → (k, v) ∈ l → HashTable.get_scan k l = Ok v.
Proof.
  induction l as [|[k0 v0] l IH]; [by intros _ ?%elem_of_nil|].
  rewrite fmap_cons, NoDup_cons. cbn [fst HashTable.get_scan].
  intros [Hk0 Hnd] [[= -> ->]|Hin]%elem_of_cons.
  - by rewrite decide_True.
  - destruct (decide (k0 = k)) as [->|_]; [|by apply IH].
    destruct Hk0. apply list_elem_of_fmap. by exists (k, v).
Qed.

Lemma get_scan_raises k l e :
  HashTable.get_scan k l = @Raise V e → e = KeyError ∧ k ∉ l.*1.
Proof.
  induction l as [|[k0 v0] l IH]; cbn [HashTable.get_scan].
  - intros [= <-]. split; [done | apply not_elem_of_nil].
  - destruct (decide (k0 = k)) as [->|Hk0]; [done|].
    intros [-> Hin]%IH. split; [done|].
    rewrite fmap_cons, not_elem_of_cons. split; [simpl; congruence | done].
Qed.

(** *** What a returning call did *)

Lemma set_inv ht k v ht' :
  HashTable.set ht k v = Ok ht' →
  ∃ b, HashTable.buckets ht !! slot ht k = Some b ∧
       ht' = {| HashTable.buckets :=
                  <[slot ht k := (k, v) :: without_first k b]>
                    (HashTable.buckets ht) |}.
Proof.
  intros Hset. destruct (decide (0 < length (HashTable.buckets ht))%nat)
    as [Hn|Hn%no_buckets].
  - destruct (lookup_slot ht k Hn) as [b Hb]. exists b. split; [done|].
    rewrite (set_spec _ _ _ _ Hb) in Hset. by injection Hset as <-.
  - unfold HashTable.set in Hset.
    by rewrite (bucket_index_no_buckets _ _ Hn) in Hset.
Qed.

Lemma delete_inv ht k ht' :
  HashTable.delete ht k = Ok ht' →
  ∃ b, HashTable.buckets ht !! slot ht k = Some b ∧
       k ∈ (LinkedList.items b).*1 ∧
       ht' = {| HashTable.buckets :=
                  <[slot ht k := without_first k b]> (HashTable.buckets ht) |}.
Proof.
  intros Hdel. destruct (decide (0 < length (HashTable.buckets ht))%nat)
    as [Hn|Hn%no_buckets].
  - destruct (lookup_slot ht k Hn) as [b Hb]. exists b. split; [done|].
    destruct (decide (k ∈ (LinkedList.items b).*1)) as [Hin|Hin].
    + split; [done|]. rewrite (delete_found _ _ _ Hb Hin) in Hdel.
      by injection Hdel as <-.
    + by rewrite (delete_missing _ _ _ Hb Hin) in Hdel.
  - unfold HashTable.delete in Hdel.
    by rewrite (bucket_index_no_buckets _ _ Hn) in Hdel.
Qed.

Lemma contains_inv ht k present :
  HashTable.contains ht k = Ok present →
  ∃ b, HashTable.buckets ht !! slot ht k = Some b ∧
       present = bool_decide (k ∈ (LinkedList.items b).*1).
Proof.
  intros Hc. destruct (decide (0 < length (HashTable.buckets ht))%nat)
    as [Hn|Hn%no_buckets].
  - destruct (lookup_slot ht k Hn) as [b Hb]. exists b. split; [done|].
    rewrite (contains_spec _ _ _ Hb) in Hc. by injection Hc as <-.
  - unfold HashTable.contains in Hc.
    by rewrite (bucket_index_no_buckets _ _ Hn) in Hc.
Qed.

Lemma lookup_after_insert ht k k' b b' c :
  HashTable.buckets ht !! slot ht k = Some b →
  HashTable.buckets ht !! slot ht k' = Some c →
  let ht' := {| HashTable.buckets :=
                  <[slot ht k := b']> (HashTable.buckets ht) |} in
  HashTable.buckets ht' !! slot ht' k'
  = Some (if decide (slot ht k' = slot ht k) then b' else c).
Proof.
  intros Hb Hc ht'. unfold ht'. rewrite slot_insert. simpl.
  destruct (decide (slot ht k' = slot ht k)) as [->|Hne].
  - by eapply list_lookup_insert_eq, lookup_lt_Some.
  - by rewrite list_lookup_insert_ne.
Qed.
(** *** Concatenations *)

Lemma concat_replicate_nil {A} (n : nat) :
  concat (replicate n ([] : list A)) = [].
Proof. induction n as [|n IH]; [done | by simpl]. Qed.

Lemma concat_insert_replicate_nil {A} (n i : nat) (xs : list A) :
  (i < n)%nat → concat (<[i := xs]> (replicate n [])) = xs.
Proof.
  revert i. induction n as [|n IH]; intros [|i] Hi; simpl; try lia.
  - by rewrite concat_replicate_nil, app_nil_r.
  - apply IH. lia.
Qed.

Lemma concat_split {A} (ls : list (list A)) i (xs : list A) :
  ls !! i = Some xs →
  concat ls = concat (take i ls) ++ xs ++ concat (drop (S i) ls).
Proof.
  intros Hi. rewrite <-(take_drop_middle ls i xs Hi) at 1.
  by rewrite concat_app.
Qed.

Lemma concat_insert_split {A} (ls : list (list A)) i (xs xs' : list A) :
  ls !! i = Some xs →
  concat (<[i := xs']> ls)
  = concat (take i ls) ++ xs' ++ concat (drop (S i) ls).
Proof.
  intros Hi. rewrite insert_take_drop by by eapply lookup_lt_Some.
  by rewrite concat_app.
Qed.

Lemma filter_key_missing k l :
  k ∉ l.*1 → filter (λ e, e.1 ≠ k) l = l.
Proof.
  induction l as [|[k0 v0] l IH]; [done|].
  rewrite fmap_cons, not_elem_of_cons. intros [Hne Hin].
  rewrite filter_cons_True by (simpl in *; congruence). by rewrite IH.
Qed.

Lemma filter_key_concat k (ls : list (list (K * V))) :
  (∀ c, c ∈ ls → k ∉ c.*1) →
  filter (λ e, e.1 ≠ k) (concat ls) = concat ls.
Proof.
  induction ls as [|c ls IH]; intros Hls; simpl; [done|].
  rewrite filter_app, filter_key_missing by (apply Hls; left).
  rewrite IH; [done|]. intros c' Hc'. apply Hls. by right.
Qed.

Lemma without_first_filter k l :
  NoDup l.*1 → without_first k l = filter (λ e, e.1 ≠ k) l.
Proof.
  induction l as [|[k0 v0] l IH]; [done|].
  rewrite fmap_cons, NoDup_cons. intros [Hk0 Hnd]. cbn [without_first fst].
  destruct (decide (k0 = k)) as [->|Hne].
  - rewrite filter_cons_False by (simpl; tauto).
    by rewrite filter_key_missing.
  - rewrite filter_cons_True by done. by rewrite IH.
Qed.

(** The entries outside the bucket of [k] do not have the key [k]. *)
Lemma chains_ok_others ht k b :
  chains_ok ht →
  HashTable.buckets ht !! slot ht k = Some b →
  filter (λ e, e.1 ≠ k) (concat (take (slot ht k) (HashTable.buckets ht)))
  = concat (take (slot ht k) (HashTable.buckets ht)) ∧
  filter (λ e, e.1 ≠ k) (concat (drop (S (slot ht k)) (HashTable.buckets ht)))
  = concat (drop (S (slot ht k)) (HashTable.buckets ht)).
Proof.
  intros Hok Hb. split; apply filter_key_concat; intros c Hc Hin.
  - apply list_elem_of_lookup in Hc as [j Hj].
    pose proof (lookup_lt_Some _ _ _ Hj) as Hlt. rewrite length_take in Hlt.
    rewrite lookup_take_lt in Hj by lia.
    destruct (Hok _ _ Hj) as [_ Hslot]. specialize (Hslot k Hin). lia.
  - apply list_elem_of_lookup in Hc as [j Hj]. rewrite lookup_drop in Hj.
    destruct (Hok _ _ Hj) as [_ Hslot]. specialize (Hslot k Hin). lia.
Qed.

(** *** The enumerations *)

(** X1: [keys] and [values] list the two halves of the entries of [items],
    in the same order. *)
Theorem items_zip_keys_values ht :
  HashTable.items ht = zip (HashTable.keys ht) (HashTable.values ht) ∧
  length (HashTable.keys ht) = HashTable.length ht ∧
  length (HashTable.values ht) = HashTable.length ht.
Proof.
  rewrite keys_items, values_items, zip_fst_snd, !length_fmap, length_items.
  done.
Qed.

(** *** Calls on other keys *)

(** X2: a call of [set] that returns changes nothing for another key: [get]
    and [contains] answer for it as before. *)
Theorem set_keeps_other_keys ht k v ht' k' :
  k' ≠ k →
  HashTable.set ht k v = Ok ht' →
  HashTable.get ht' k' = HashTable.get ht k' ∧
  HashTable.contains ht' k' = HashTable.contains ht k'.
Proof.
  intros Hne (b & Hb & ->)%set_inv.
  pose proof (lookup_some_buckets _ _ _ Hb) as Hn.
  destruct (lookup_slot ht k' Hn) as [c Hc].
  pose proof (lookup_after_insert ht k k' b ((k, v) :: without_first k b) c
                Hb Hc) as Hnew. cbv zeta in Hnew.
  rewrite (get_spec _ _ _ Hnew), (get_spec _ _ _ Hc).
  rewrite (contains_spec _ _ _ Hnew), (contains_spec _ _ _ Hc).
  destruct (decide (slot ht k' = slot ht k)) as [Heq|_]; [|done].
  rewrite Heq in Hc. replace c with b by congruence.
  unfold LinkedList.items. split.
  - cbn [HashTable.get_scan]. rewrite decide_False by done.
    by apply get_scan_without_first.
  - f_equal. apply bool_decide_ext. rewrite fmap_cons, elem_of_cons. split.
    + intros [?|?%without_first_subseteq]; done.
    + intros Hin. right. by apply without_first_other.
Qed.

(** X3: a call of [delete] that returns changes nothing for another key. *)
Theorem delete_keeps_other_keys ht k ht' k' :
  k' ≠ k →
  HashTable.delete ht k = Ok ht' →
  HashTable.get ht' k' = HashTable.get ht k' ∧
  HashTable.contains ht' k' = HashTable.contains ht k'.
Proof.
  intros Hne (b & Hb & _ & ->)%delete_inv.
  pose proof (lookup_some_buckets _ _ _ Hb) as Hn.
  destruct (lookup_slot ht k' Hn) as [c Hc].
  pose proof (lookup_after_insert ht k k' b (without_first k b) c Hb Hc)
    as Hnew. cbv zeta in Hnew.
  rewrite (get_spec _ _ _ Hnew), (get_spec _ _ _ Hc).
  rewrite (contains_spec _ _ _ Hnew), (contains_spec _ _ _ Hc).
  destruct (decide (slot ht k' = slot ht k)) as [Heq|_]; [|done].
  rewrite Heq in Hc. replace c with b by congruence.
  unfold LinkedList.items. split.
  - by apply get_scan_without_first.
  - f_equal. apply bool_decide_ext. split.
    + by intros ?%without_first_subseteq.
    + by apply without_first_other.
Qed.

(** *** The number of entries and of buckets *)

(** X4: a call of [set] that returns adds one to [length] when [contains]
    was [False] for the key, and leaves [length] as it was when [contains]
    was [True]. *)
Theorem set_length ht k v ht' :
  HashTable.set ht k v = Ok ht' →
  ∃ present : bool,
    HashTable.contains ht k = Ok present ∧
    HashTable.length ht'
    = if present then HashTable.length ht else S (HashTable.length ht).
Proof.
  intros (b & Hb & ->)%set_inv.
  exists (bool_decide (k ∈ (LinkedList.items b).*1)).
  split; [by apply contains_spec|].
  rewrite !length_items, !items_concat. cbn [HashTable.buckets].
  pose proof (length_concat_insert (HashTable.buckets ht) (slot ht k) b
                ((k, v) :: without_first k b) Hb) as Hlen.
  cbn [length] in Hlen. unfold LinkedList.items. case_bool_decide as Hin.
  - rewrite (without_first_length k b Hin) in Hlen.
    by apply Nat.add_cancel_r in Hlen.
  - rewrite (without_first_missing k b Hin) in Hlen |- *.
    rewrite Nat.add_succ_r, <-Nat.add_succ_l in Hlen.
    by apply Nat.add_cancel_r in Hlen.
Qed.

(** X5: a call of [delete] that returns takes one from [length]. *)
Theorem delete_length ht k ht' :
  HashTable.delete ht k = Ok ht' →
  HashTable.length ht = S (HashTable.length ht').
Proof.
  intros (b & Hb & Hin & ->)%delete_inv.
  rewrite !length_items, !items_concat. cbn [HashTable.buckets].
  pose proof (length_concat_insert (HashTable.buckets ht) (slot ht k) b
                (without_first k b) Hb) as Hlen.
  rewrite <-(without_first_length k b Hin) in Hlen at 1.
  rewrite Nat.add_succ_r, <-Nat.add_succ_l in Hlen.
  apply Nat.add_cancel_r in Hlen. by symmetry.
Qed.

(** X6: a call of [set] or of [delete] that returns leaves the number of
    buckets as it was, and with it the bucket index of every key. *)
Theorem bucket_count_fixed ht ht' :
  (∃ k v, HashTable.set ht k v = Ok ht') ∨
  (∃ k, HashTable.delete ht k = Ok ht') →
  length (HashTable.buckets ht') = length (HashTable.buckets ht) ∧
  ∀ k', HashTable._bucket_index ht' k' = HashTable._bucket_index ht k'.
Proof.
  intros Hcall.
  assert (length (HashTable.buckets ht') = length (HashTable.buckets ht))
    as Hlen.
  { destruct Hcall as [(k & v & (b & _ & ->)%set_inv)
                      |(k & (b & _ & _ & ->)%delete_inv)];
      simpl; apply length_insert. }
  split; [done|]. intros k'. unfold HashTable._bucket_index. by rewrite Hlen.
Qed.

(** *** Which calls return *)

(** X7: [contains] tells what [get] and [delete] do: when it returns [True]
    both return, and when it returns [False] both raise [KeyError]. *)
Theorem contains_decides ht k (present : bool) :
  HashTable.contains ht k = Ok present →
  if present
  then (∃ v, HashTable.get ht k = Ok v) ∧
       (∃ ht', HashTable.delete ht k = Ok ht')
  else HashTable.get ht k = Raise KeyError ∧
       HashTable.delete ht k = Raise KeyError.
Proof.
  intros (b & Hb & ->)%contains_inv. case_bool_decide as Hin.
  - split.
    + destruct (get_scan_found k b Hin) as (v & Hget & _). exists v.
      by rewrite (get_spec _ _ _ Hb).
    + eexists. by apply (delete_found _ _ b).
  - split.
    + rewrite (get_spec _ _ _ Hb). by apply get_scan_missing.
    + by apply (delete_missing _ _ b).
Qed.

(** X8: in a reachable table [get] returns [v] for [k] exactly when
    [(k, v)] is one of [items]. *)
Theorem get_iff_items ht k v :
  reachable ht →
  HashTable.get ht k = Ok v ↔ (k, v) ∈ HashTable.items ht.
Proof.
  intros Hok%reachable_chains_ok. rewrite items_concat. split.
  - intros Hget.
    destruct (decide (0 < length (HashTable.buckets ht))%nat)
      as [Hn|Hn%no_buckets].
    + destruct (lookup_slot ht k Hn) as [b Hb].
      rewrite (get_spec _ _ _ Hb) in Hget. apply get_scan_elem in Hget.
      apply elem_of_concat. exists b. split; [done|].
      by apply list_elem_of_lookup_2 in Hb.
    + unfold HashTable.get in Hget.
      by rewrite (bucket_index_no_buckets _ _ Hn) in Hget.
  - intros (b & Hin & [i Hi]%list_elem_of_lookup)%elem_of_concat.
    destruct (Hok _ _ Hi) as [Hnd Hslot].
    assert (slot ht k = i) as <-.
    { apply Hslot, list_elem_of_fmap. by exists (k, v). }
    rewrite (get_spec _ _ _ Hi). by apply get_scan_NoDup.
Qed.

(** X9: [set] is idempotent: on the table a call of [set] leaves, the same
    call returns and leaves that table. *)
Theorem set_idempotent ht k v ht' :
  HashTable.set ht k v = Ok ht' → HashTable.set ht' k v = Ok ht'.
Proof.
  intros (b & Hb & ->)%set_inv.
  pose proof (lookup_after_insert ht k k b ((k, v) :: without_first k b) b
                Hb Hb) as Hnew. cbv zeta in Hnew.
  rewrite decide_True in Hnew by done.
  rewrite (set_spec _ _ _ _ Hnew), without_first_head, slot_insert.
  cbn [HashTable.buckets]. by rewrite list_insert_insert_eq.
Qed.

(** X10: when [contains] is [False] for a key, [set] and then [delete] of
    that key both return and give back the table as it was. *)
Theorem set_then_delete_restores ht k v :
  HashTable.contains ht k = Ok false →
  ∃ ht', HashTable.set ht k v = Ok ht' ∧ HashTable.delete ht' k = Ok ht.
Proof.
  intros (b & Hb & Hin)%contains_inv.
  symmetry in Hin. apply bool_decide_eq_false_1 in Hin.
  eexists. split; [by apply set_spec|].
  rewrite (without_first_missing k b Hin).
  pose proof (lookup_after_insert ht k k b ((k, v) :: b) b Hb Hb) as Hnew.
  cbv zeta in Hnew. rewrite decide_True in Hnew by done.
  rewrite (delete_found _ _ _ Hnew).
  - rewrite without_first_head, slot_insert. cbn [HashTable.buckets].
    rewrite list_insert_insert_eq, list_insert_id by done. by destruct ht.
  - unfold LinkedList.items. rewrite fmap_cons. left.
Qed.

(** X11: in a reachable table a second [delete] of a key raises [KeyError]:
    the first one left no entry for it. *)
Theorem delete_twice_raises ht k ht' :
  reachable ht →
  HashTable.delete ht k = Ok ht' →
  HashTable.delete ht' k = Raise KeyError.
Proof.
  intros Hok%reachable_chains_ok (b & Hb & Hin & ->)%delete_inv.
  pose proof (lookup_after_insert ht k k b (without_first k b) b Hb Hb)
    as Hnew. cbv zeta in Hnew. rewrite decide_True in Hnew by done.
  apply (delete_missing _ _ _ Hnew).
  destruct (Hok _ _ Hb) as [Hnd _].
  by destruct (without_first_NoDup k b Hnd).
Qed.

(** *** What is raised *)

(** X12: [set] raises nothing but [ZeroDivisionError], and only on a table
    without buckets: the [delete] inside it cannot raise. *)
Theorem set_raises_only_without_buckets ht k v e :
  HashTable.set ht k v = Raise e →
  e = ZeroDivisionError ∧ HashTable.buckets ht = [].
Proof.
  intros Hset. destruct (decide (0 < length (HashTable.buckets ht))%nat)
    as [Hn|Hn%no_buckets].
  - destruct (lookup_slot ht k Hn) as [b Hb].
    by rewrite (set_spec _ _ _ _ Hb) in Hset.
  - unfold HashTable.set in Hset.
    rewrite (bucket_index_no_buckets _ _ Hn) in Hset.
    by injection Hset as <-.
Qed.

(** X13: what [get] and [delete] raise is [ZeroDivisionError] on a table
    without buckets and [KeyError] on any other, and then [contains] returns
    [False] for the key. *)
Theorem get_delete_raise ht k e :
  HashTable.get ht k = Raise e ∨ HashTable.delete ht k = Raise e →
  (e = ZeroDivisionError ∧ HashTable.buckets ht = []) ∨
  (e = KeyError ∧ HashTable.contains ht k = Ok false).
Proof.
  intros Hcall. destruct (decide (0 < length (HashTable.buckets ht))%nat)
    as [Hn|Hn%no_buckets].
  - right. destruct (lookup_slot ht k Hn) as [b Hb].
    rewrite (contains_spec _ _ _ Hb), (get_spec _ _ _ Hb) in *.
    destruct (decide (k ∈ (LinkedList.items b).*1)) as [Hin|Hin].
    + rewrite (delete_found _ _ _ Hb Hin) in Hcall.
      destruct (get_scan_found k b Hin) as (v & Hget & _).
      unfold LinkedList.items in *. rewrite Hget in Hcall.
      by destruct Hcall.
    + rewrite (delete_missing _ _ _ Hb Hin) in Hcall.
      rewrite bool_decide_eq_false_2 by done. split; [|done].
      destruct Hcall as [[-> _]%get_scan_raises|[= <-]]; done.
  - left. unfold HashTable.get, HashTable.delete in Hcall.
    rewrite (bucket_index_no_buckets _ _ Hn) in Hcall.
    split; [|done]. by destruct Hcall as [[= <-]|[= <-]].
Qed.

(** X14: no call raises [IndexError]: the index [_bucket_index] gives is
    always one of [self.buckets]. *)
Theorem never_index_error ht k v :
  HashTable.contains ht k ≠ Raise IndexError ∧
  HashTable.get ht k ≠ Raise IndexError ∧
  HashTable.set ht k v ≠ Raise IndexError ∧
  HashTable.delete ht k ≠ Raise IndexError.
Proof.
  destruct (decide (0 < length (HashTable.buckets ht))%nat)
    as [Hn|Hn%no_buckets].
  - destruct (lookup_slot ht k Hn) as [b Hb].
    rewrite (contains_spec _ _ _ Hb), (get_spec _ _ _ Hb).
    rewrite (set_spec _ _ _ _ Hb).
    split; [done|]. split; [by intros [? _]%get_scan_raises|].
    split; [done|].
    destruct (decide (k ∈ (LinkedList.items b).*1)) as [Hin|Hin].
    + by rewrite (delete_found _ _ _ Hb Hin).
    + by rewrite (delete_missing _ _ _ Hb Hin).
  - unfold HashTable.contains, HashTable.get, HashTable.set, HashTable.delete.
    by rewrite (bucket_index_no_buckets _ _ Hn).
Qed.

(** *** New tables *)

(** X15: when [init_size] is 0 or less the table has no bucket, and
    [contains], [get], [set] and [delete] raise [ZeroDivisionError] for
    every key. *)
Theorem nonpositive_size_raises (init_size : Z) k v :
  init_size ≤ 0 →
  HashTable.buckets (HashTable.__init__ (K:=K) (V:=V) init_size) = [] ∧
  HashTable.contains (HashTable.__init__ (V:=V) init_size) k
    = Raise ZeroDivisionError ∧
  HashTable.get (HashTable.__init__ (V:=V) init_size) k
    = Raise ZeroDivisionError ∧
  HashTable.set (HashTable.__init__ init_size) k v
    = Raise ZeroDivisionError ∧
  HashTable.delete (HashTable.__init__ (V:=V) init_size) k
    = Raise ZeroDivisionError.
Proof.
  intros Hsize. unfold HashTable.__init__.
  replace (Z.to_nat init_size) with 0%nat by lia. done.
Qed.

Context `{Repr K} `{Repr V}.

(** X16: a new table has [init_size] buckets when that is not negative and
    no entry: [items], [keys] and [values] are empty, [length] is 0 and the
    two string forms are those of no entry. *)
Theorem new_table_empty (init_size : Z) :
  let ht := HashTable.__init__ (K:=K) (V:=V) init_size in
  length (HashTable.buckets ht) = Z.to_nat init_size ∧
  HashTable.items ht = [] ∧
  HashTable.keys ht = [] ∧
  HashTable.values ht = [] ∧
  HashTable.length ht = 0%nat ∧
  HashTable.__str__ ht = "{}" ∧
  HashTable.__repr__ ht = "HashTable([])".
Proof.
  intros ht.
  assert (HashTable.items ht = []) as Hitems.
  { rewrite items_concat. apply concat_replicate_nil. }
  split; [apply length_replicate|]. split; [done|].
  rewrite keys_items, values_items, length_items.
  unfold HashTable.__str__, HashTable.__repr__. by rewrite Hitems.
Qed.

(** X17: on a new table with at least one bucket, [contains] returns
    [False] for every key, and a first [set] makes its entry the only one of
    [items]. *)
Theorem new_table_first_set (init_size : Z) k v :
  0 < init_size →
  HashTable.contains (HashTable.__init__ (V:=V) init_size) k = Ok false ∧
  ∃ ht', HashTable.set (HashTable.__init__ init_size) k v = Ok ht' ∧
         HashTable.items ht' = [(k, v)] ∧
         HashTable.length ht' = 1%nat ∧
         HashTable.__str__ ht' = "{" +:+ repr k +:+ ": " +:+ repr v +:+ "}".
Proof.
  intros Hsize. set (ht := HashTable.__init__ init_size).
  assert (0 < length (HashTable.buckets ht))%nat as Hn.
  { unfold ht. simpl. rewrite length_replicate. lia. }
  destruct (lookup_slot ht k Hn) as [b Hb].
  pose proof (lookup_lt_Some _ _ _ Hb) as Hlt.
  assert (b = []) as ->.
  { unfold ht in Hb. simpl in Hb. by apply lookup_replicate in Hb as [-> _]. }
  split; [by rewrite (contains_spec _ _ _ Hb)|].
  eexists. split; [by apply set_spec|].
  set (ht' := {| HashTable.buckets := _ |}).
  assert (HashTable.items ht' = [(k, v)]) as Hitems.
  { rewrite items_concat. unfold ht'. cbn [HashTable.buckets without_first].
    unfold ht at 2. cbn [HashTable.__init__ HashTable.buckets].
    apply concat_insert_replicate_nil.
    unfold ht in Hlt. simpl in Hlt. by rewrite length_replicate in Hlt. }
  split; [done|]. split; [by rewrite length_items, Hitems|].
  unfold HashTable.__str__. rewrite Hitems. simpl.
  by rewrite !append_assoc.
Qed.

(** *** The entries after a call *)

(** X18: in a reachable table a call of [delete] that returns leaves the
    entries of [items] that have another key, in the order they had. *)
Theorem delete_items_filter ht k ht' :
  reachable ht →
  HashTable.delete ht k = Ok ht' →
  HashTable.items ht' = filter (λ e, e.1 ≠ k) (HashTable.items ht).
Proof.
  intros Hok%reachable_chains_ok (b & Hb & Hin & ->)%delete_inv.
  rewrite !items_concat. cbn [HashTable.buckets].
  rewrite (concat_insert_split _ _ _ _ Hb), (concat_split _ _ _ Hb).
  destruct (chains_ok_others ht k b Hok Hb) as [Htake Hdrop].
  destruct (Hok _ _ Hb) as [Hnd _]. unfold LinkedList.LinkedList in *.
  by rewrite !filter_app, Htake, Hdrop, without_first_filter.
Qed.

(** X19: in a reachable table a call of [set] that returns leaves the new
    entry and the entries of [items] that have another key, up to the order
    of [items]. *)
Theorem set_items_permutation ht k v ht' :
  reachable ht →
  HashTable.set ht k v = Ok ht' →
  HashTable.items ht' ≡ₚ (k, v) :: filter (λ e, e.1 ≠ k) (HashTable.items ht).
Proof.
  intros Hok%reachable_chains_ok (b & Hb & ->)%set_inv.
  rewrite !items_concat. cbn [HashTable.buckets].
  rewrite (concat_insert_split _ _ _ _ Hb), (concat_split _ _ _ Hb).
  destruct (chains_ok_others ht k b Hok Hb) as [Htake Hdrop].
  destruct (Hok _ _ Hb) as [Hnd _]. unfold LinkedList.LinkedList in *.
  rewrite !filter_app, Htake, Hdrop, <-without_first_filter by done.
  by rewrite <-app_comm_cons, <-Permutation_middle.
Qed.
End More.

(** ** The further properties at the table of the demonstration *)

Example roman_table_set_V7 :
  HashTable.set roman_table "V" 7 = Ok roman_table_V7.
Proof. reflexivity. Qed.

Example roman_table_delete_I :
  HashTable.delete roman_table "I" = Ok roman_table_no_I.
Proof. reflexivity. Qed.

Lemma set_keeps_other_keys_witness :
  "X" ≠ "V" ∧
  HashTable.set roman_table "V" 7 = Ok roman_table_V7 ∧
  HashTable.get roman_table_V7 "X" = HashTable.get roman_table "X" ∧
  HashTable.contains roman_table_V7 "X" = HashTable.contains roman_table "X".
Proof.
  split; [done|]. split; [reflexivity|].
  apply (set_keeps_other_keys roman_table "V" 7 roman_table_V7 "X");
    [done | reflexivity].
Defined.

Lemma delete_keeps_other_keys_witness :
  "X" ≠ "I" ∧
  HashTable.delete roman_table "I" = Ok roman_table_no_I ∧
  HashTable.get roman_table_no_I "X" = HashTable.get roman_table "X" ∧
  HashTable.contains roman_table_no_I "X" = HashTable.contains roman_table "X".
Proof.
  split; [done|]. split; [reflexivity|].
  apply (delete_keeps_other_keys roman_table "I" roman_table_no_I "X");
    [done | reflexivity].
Defined.

Lemma set_length_witness :
  HashTable.set roman_table "V" 7 = Ok roman_table_V7 ∧
  ∃ present : bool,
    HashTable.contains roman_table "V" = Ok present ∧
    HashTable.length roman_table_V7
    = if present then HashTable.length roman_table
      else S (HashTable.length roman_table).
Proof.
  split; [reflexivity|].
  apply (set_length roman_table "V" 7 roman_table_V7). reflexivity.
Defined.

Lemma delete_length_witness :
  HashTable.delete roman_table "I" = Ok roman_table_no_I ∧
  HashTable.length roman_table = S (HashTable.length roman_table_no_I).
Proof.
  split; [reflexivity|].
  apply (delete_length roman_table "I" roman_table_no_I). reflexivity.
Defined.

Lemma bucket_count_fixed_witness :
  ((∃ k v, HashTable.set roman_table k v = Ok roman_table_V7) ∨
   (∃ k, HashTable.delete roman_table k = Ok roman_table_V7)) ∧
  length (HashTable.buckets roman_table_V7)
  = length (HashTable.buckets roman_table) ∧
  ∀ k', HashTable._bucket_index roman_table_V7 k'
        = HashTable._bucket_index roman_table k'.
Proof.
  assert ((∃ k v, HashTable.set roman_table k v = Ok roman_table_V7) ∨
          (∃ k, HashTable.delete roman_table k = Ok roman_table_V7)) as Hcall.
  { left. exists "V", 7. reflexivity. }
  split; [exact Hcall|].
  exact (bucket_count_fixed roman_table roman_table_V7 Hcall).
Defined.

Lemma contains_decides_witness :
  HashTable.contains roman_table "I" = Ok true ∧
  (∃ v, HashTable.get roman_table "I" = Ok v) ∧
  (∃ ht', HashTable.delete roman_table "I" = Ok ht').
Proof.
  split; [reflexivity|].
  apply (contains_decides roman_table "I" true). reflexivity.
Defined.

Lemma get_iff_items_witness :
  reachable roman_table ∧
  (HashTable.get roman_table "X" = Ok 10 ↔
   ("X", 10) ∈ HashTable.items roman_table).
Proof.
  split; [exact roman_table_reachable|].
  apply (get_iff_items roman_table "X" 10). exact roman_table_reachable.
Defined.

Lemma set_idempotent_witness :
  HashTable.set roman_table "V" 7 = Ok roman_table_V7 ∧
  HashTable.set roman_table_V7 "V" 7 = Ok roman_table_V7.
Proof.
  split; [reflexivity|].
  apply (set_idempotent roman_table "V" 7 roman_table_V7). reflexivity.
Defined.

Lemma set_then_delete_restores_witness :
  HashTable.contains roman_table "L" = Ok false ∧
  ∃ ht', HashTable.set roman_table "L" 50 = Ok ht' ∧
         HashTable.delete ht' "L" = Ok roman_table.
Proof.
  split; [reflexivity|].
  apply (set_then_delete_restores roman_table "L" 50). reflexivity.
Defined.

Lemma delete_twice_raises_witness :
  reachable roman_table ∧
  HashTable.delete roman_table "I" = Ok roman_table_no_I ∧
  HashTable.delete roman_table_no_I "I" = Raise KeyError.
Proof.
  split; [exact roman_table_reachable|]. split; [reflexivity|].
  apply (delete_twice_raises roman_table "I" roman_table_no_I);
    [exact roman_table_reachable | reflexivity].
Defined.

Lemma set_raises_only_without_buckets_witness :
  HashTable.set (HashTable.__init__ 0 : table) "I" 1
    = Raise ZeroDivisionError ∧
  ZeroDivisionError = ZeroDivisionError ∧
  HashTable.buckets (HashTable.__init__ 0 : table) = [].
Proof.
  split; [reflexivity|].
  apply (set_raises_only_without_buckets (HashTable.__init__ 0 : table)
           "I" 1 ZeroDivisionError).
  reflexivity.
Defined.

Lemma get_delete_raise_witness :
  (HashTable.get roman_table "L" = Raise KeyError ∨
   HashTable.delete roman_table "L" = Raise KeyError) ∧
  ((KeyError = ZeroDivisionError ∧ HashTable.buckets roman_table = []) ∨
   (KeyError = KeyError ∧ HashTable.contains roman_table "L" = Ok false)).
Proof.
  assert (HashTable.get roman_table "L" = Raise KeyError ∨
          HashTable.delete roman_table "L" = Raise KeyError) as Hcall.
  { left. reflexivity. }
  split; [exact Hcall|].
  exact (get_delete_raise roman_table "L" KeyError Hcall).
Defined.

Lemma nonpositive_size_raises_witness :
  -3 ≤ 0 ∧
  HashTable.buckets (HashTable.__init__ (-3) : table) = [] ∧
  HashTable.contains (HashTable.__init__ (-3) : table) "I"
    = Raise ZeroDivisionError ∧
  HashTable.get (HashTable.__init__ (-3) : table) "I"
    = Raise ZeroDivisionError ∧
  HashTable.set (HashTable.__init__ (-3) : table) "I" 1
    = Raise ZeroDivisionError ∧
  HashTable.delete (HashTable.__init__ (-3) : table) "I"
    = Raise ZeroDivisionError.
Proof.
  split; [lia|]. apply (nonpositive_size_raises (-3) "I" 1). lia.
Defined.

Lemma new_table_first_set_witness :
  0 < 8 ∧
  HashTable.contains (HashTable.__init__ 8 : table) "I" = Ok false ∧
  ∃ ht', HashTable.set (HashTable.__init__ 8 : table) "I" 1 = Ok ht' ∧
         HashTable.items ht' = [("I", 1)] ∧
         HashTable.length ht' = 1%nat ∧
         HashTable.__str__ ht' = "{" +:+ repr "I" +:+ ": " +:+ repr 1 +:+ "}".
Proof.
  split; [lia|]. apply (new_table_first_set 8 "I" 1). lia.
Defined.

Lemma delete_items_filter_witness :
  reachable roman_table ∧
  HashTable.delete roman_table "I" = Ok roman_table_no_I ∧
  HashTable.items roman_table_no_I
  = filter (λ e, e.1 ≠ "I") (HashTable.items roman_table).
Proof.
  split; [exact roman_table_reachable|]. split; [reflexivity|].
  apply (delete_items_filter roman_table "I" roman_table_no_I);
    [exact roman_table_reachable | reflexivity].
Defined.

Lemma set_items_permutation_witness :
  reachable roman_table ∧
  HashTable.set roman_table "V" 7 = Ok roman_table_V7 ∧
  HashTable.items roman_table_V7
  ≡ₚ ("V", 7) :: filter (λ e, e.1 ≠ "V") (HashTable.items roman_table).
Proof.
  split; [exact roman_table_reachable|]. split; [reflexivity|].
  apply (set_items_permutation roman_table "V" 7 roman_table_V7);
    [exact roman_table_reachable | reflexivity].
Defined.
